(** * repo-inspector: the C fixtures, embedded and verified

    Two small C programs of the repository: [test_project] (utils.c,
    math_utils.c, main.c) and [tests/fixtures/complex.c].  This file
    embeds their functions shallowly and proves the properties that the
    specification states about them.

    Conventions.
    - A C [int] is a 32-bit two's-complement value, represented by the
      [Z] it denotes; every arithmetic operator of the source is written
      with its wrap-around ([cint.wrap]).  The C standard leaves signed
      overflow undefined; the specification fixes it to wrap.
    - A C [double] is an IEEE 754 binary64 value ([spec_float]).
    - Standard output is the string of the bytes written so far, threaded
      through the printing functions.
    - A loop takes a bound on the number of times its test is evaluated
      (its fuel) and answers [None] when the bound is reached. *)

From Stdlib Require Import ZArith Lia Bool List String Ascii.
From Stdlib Require Import DecimalString QArith.
From Stdlib Require Import Floats.SpecFloat.
From Stdlib Require Import FunInd Recdef.

Import ListNotations.
Local Open Scope Z_scope.

(** ** C integers *)

Module cint.

Definition bits : Z := 32.
Definition modulus : Z := 2 ^ bits.
Definition half_modulus : Z := 2 ^ (bits - 1).
Definition INT_MIN : Z := - half_modulus.
Definition INT_MAX : Z := half_modulus - 1.

(** The values an [int] can hold. *)
Definition in_range (z : Z) : Prop := INT_MIN <= z <= INT_MAX.

Definition in_rangeb (z : Z) : bool := (INT_MIN <=? z) && (z <=? INT_MAX).

(** The representative of [z] modulo [2^32] that an [int] holds. *)
Definition wrap (z : Z) : Z := (z + half_modulus) mod modulus - half_modulus.

(** [a + b], [a - b], [a * b] and unary [- a] on [int]. *)
Definition add (a b : Z) : Z := wrap (a + b).
Definition sub (a b : Z) : Z := wrap (a - b).
Definition mul (a b : Z) : Z := wrap (a * b).
Definition neg (a : Z) : Z := wrap (- a).

(** [a % b]: the remainder has the sign of the dividend (C99 6.5.5). *)
Definition rem (a b : Z) : Z := wrap (Z.rem a b).

(** A comparison yields the [int] 1 or 0. *)
Definition of_bool (b : bool) : Z := if b then 1 else 0.
Definition eq (a b : Z) : Z := of_bool (a =? b).

End cint.

(** ** C doubles

    A [double] is an IEEE 754 binary64 value, in the Standard Library's
    specification of floating-point numbers: precision 53, exponents
    below 1024, results rounded to nearest, ties to even. *)

Module double.

Definition prec : Z := 53.
Definition emax : Z := 1024.

(** The conversion of an [int] operand to [double]. *)
Definition of_int (z : Z) : spec_float := binary_normalize prec emax z 0 false.

(** [x / y] on [double]. *)
Definition div (x y : spec_float) : spec_float := SFdiv prec emax x y.

(** The constant [2.0]. *)
Definition two : spec_float := S754_finite false (2 ^ 52) (-51).

(** The rational number a finite [double] denotes (0 for the others). *)
Definition to_Q (x : spec_float) : Q :=
  match x with
  | S754_finite s m e =>
      let v := if s then Z.neg m else Z.pos m in
      if 0 <=? e then inject_Z (v * 2 ^ e) else Qmake v (Z.to_pos (2 ^ (- e)))
  | _ => 0%Q
  end.

(** The values of the binary64 format. *)
Definition valid (x : spec_float) : bool := valid_binary prec emax x.

Definition is_finite (x : spec_float) : bool :=
  match x with
  | S754_finite _ _ _ | S754_zero _ => true
  | _ => false
  end.

End double.

(** ** Standard output *)

Module stdio.

(** What the conversion [%d] of [printf] writes for an [int]: its
    decimal digits, after a minus sign when it is negative. *)
Definition fmt_d (x : Z) : string := NilZero.string_of_int (Z.to_int x).

Definition newline : ascii := "010"%char.

(** The characters of a string satisfy [p]. *)
Fixpoint all_chars (p : ascii -> bool) (s : string) : bool :=
  match s with
  | EmptyString => true
  | String c s' => p c && all_chars p s'
  end.

(** A decimal digit, the minus sign or the space. *)
Definition digit_sign_space (c : ascii) : bool :=
  existsb (Ascii.eqb c) (list_ascii_of_string "0123456789- ").

(** A decimal digit or the minus sign. *)
Definition digit_sign (c : ascii) : bool :=
  existsb (Ascii.eqb c) (list_ascii_of_string "0123456789-").

(** The number of occurrences of [c] in [s]. *)
Fixpoint count_char (c : ascii) (s : string) : nat :=
  match s with
  | EmptyString => O
  | String d s' => (if Ascii.eqb c d then 1 else 0) + count_char c s'
  end.

(** The line terminator of the C source. *)
Definition nl : string := String newline EmptyString.

(** What [printf(fmt, args...)] writes, for a format whose conversions
    are all [%d]: [None] when an argument is missing or the format holds
    another conversion.  Arguments left over are ignored, as in C. *)
Fixpoint printf (fmt : string) (args : list Z) : option string :=
  match fmt with
  | EmptyString => Some EmptyString
  | String c fmt' =>
      if Ascii.eqb c "%" then
        match fmt' with
        | String d rest =>
            if Ascii.eqb d "d" then
              match args with
              | x :: args' =>
                  option_map (String.append (fmt_d x)) (printf rest args')
              | [] => None
              end
            else None
        | EmptyString => None
        end
      else option_map (String c) (printf fmt' args)
  end.

(** Programs that write: a computation takes the output written so far
    and returns its result with the output extended, or fails. *)
Definition io (A : Type) : Type := string -> option (A * string).

Definition ret {A : Type} (x : A) : io A := fun out => Some (x, out).

Definition bind {A B : Type} (m : io A) (k : A -> io B) : io B :=
  fun out =>
    match m out with
    | Some (x, out') => k x out'
    | None => None
    end.

(** A call of [printf] whose result is not used. *)
Definition print (fmt : string) (args : list Z) : io unit :=
  fun out =>
    match printf fmt args with
    | Some s => Some (tt, (out ++ s)%string)
    | None => None
    end.

End stdio.

Notation "m ;; k" := (stdio.bind m (fun _ => k))
  (at level 61, right associativity).

(** ** test_project/utils.c *)

Module utils.

Definition add (a b : Z) : Z := cint.add a b.

Definition subtract (a b : Z) : Z := cint.sub a b.

Definition multiply (a b : Z) : Z := cint.mul a b.

Definition is_even (n : Z) : Z := cint.eq (cint.rem n 2) 0.

End utils.

(** ** test_project/main.c *)

Module main_c.

Import stdio.

Definition main : io Z :=
  print ("Hello, World!" ++ nl) [] ;;
  let a := 5 in
  let b := 3 in
  print ("%d + %d = %d" ++ nl) [a; b; utils.add a b] ;;
  print ("%d - %d = %d" ++ nl) [a; b; utils.subtract a b] ;;
  print ("%d * %d = %d" ++ nl) [a; b; utils.multiply a b] ;;
  (if negb (utils.is_even a =? 0)
   then print ("%d is even" ++ nl) [a]
   else print ("%d is odd" ++ nl) [a]) ;;
  ret 0.

End main_c.

(** ** test_project/math_utils.c *)

Module math_utils.

Definition square_sum (a b : Z) : Z := cint.add (cint.mul a a) (cint.mul b b).

(** The sum is an [int] addition; its result is converted to [double]
    for the division by the [double] constant. *)
Definition average (a b : Z) : spec_float :=
  double.div (double.of_int (cint.add a b)) double.two.

End math_utils.

(** ** tests/fixtures/complex.c *)

Module complex.

(** [fibonacci] recurses on [n - 1] and [n - 2] when [1 < n]; both are
    smaller than [n] and the guard stops at 1, so [n] itself (as a
    natural number) is a measure. *)
Function fibonacci (n : Z) {measure Z.to_nat n} : Z :=
  if n <=? 1 then n
  else cint.add (fibonacci (cint.sub n 1)) (fibonacci (cint.sub n 2)).
Proof.
  all: intros n Hgt; apply Z.leb_gt in Hgt; unfold cint.sub, cint.wrap.
  all: assert (Hm : cint.modulus = 2 * cint.half_modulus) by reflexivity.
  all: assert (Hh : 2 < cint.half_modulus) by reflexivity.
  all: match goal with
       | |- context [ ?x mod cint.modulus ] =>
           assert (Hx : 0 <= x) by lia;
           assert (Hp : 0 < cint.modulus) by lia;
           pose proof (Z.mod_le x cint.modulus Hx Hp)
       end; lia.
Defined.

(** The same function with a bound on the depth of the call stack:
    [None] when a call would exceed it. *)
Fixpoint fibonacci_depth (depth : nat) (n : Z) : option Z :=
  match depth with
  | O => None
  | S depth' =>
      if n <=? 1 then Some n
      else
        match fibonacci_depth depth' (cint.sub n 1),
              fibonacci_depth depth' (cint.sub n 2) with
        | Some x, Some y => Some (cint.add x y)
        | _, _ => None
        end
  end.

(** [fibonacci_calls m n]: the call [fibonacci(n)] passes the guard and
    calls [fibonacci(m)]. *)
Inductive fibonacci_calls : Z -> Z -> Prop :=
| calls_minus_1 (n : Z) : 1 < n -> fibonacci_calls (cint.sub n 1) n
| calls_minus_2 (n : Z) : 1 < n -> fibonacci_calls (cint.sub n 2) n.

(** [fibonacci] with its calls counted: the value returned and the number
    of calls of [fibonacci] made, the first one included; [None] when the
    call stack would exceed [depth] frames. *)
Fixpoint fibonacci_traced (depth : nat) (n : Z) : option (Z * Z) :=
  match depth with
  | O => None
  | S depth' =>
      if n <=? 1 then Some (n, 1)
      else
        match fibonacci_traced depth' (cint.sub n 1),
              fibonacci_traced depth' (cint.sub n 2) with
        | Some (x, cx), Some (y, cy) => Some (cint.add x y, 1 + cx + cy)
        | _, _ => None
        end
  end.

(** The loop of [print_sequence], entered with the counter at [i]. *)
Fixpoint print_sequence_loop (fuel : nat) (count i : Z) (out : string)
  : option string :=
  match fuel with
  | O => None
  | S fuel' =>
      if i <? count
      then print_sequence_loop fuel' count (cint.add i 1)
             (out ++ stdio.fmt_d (fibonacci i) ++ " ")
      else Some out
  end.

Definition print_sequence (fuel : nat) (count : Z) (out : string)
  : option string :=
  print_sequence_loop fuel count 0 out.

(** [main] returns its exit status with the output. *)
Definition main (fuel : nat) (out : string) : option (Z * string) :=
  match print_sequence fuel 10 out with
  | Some out' => Some (0, out')
  | None => None
  end.

End complex.

(** ** The Fibonacci sequence

    The sequence of the specification, over unbounded integers: [F 0 = 0],
    [F 1 = 1] and [F (k + 2) = F (k + 1) + F k].  [fib_pair k] is
    [(F k, F (k + 1))]. *)

Module sequence.

Fixpoint fib_pair (k : nat) : Z * Z :=
  match k with
  | O => (0, 1)
  | S k' => let '(a, b) := fib_pair k' in (b, a + b)
  end.

Definition F (k : nat) : Z := fst (fib_pair k).

(** What the specification has [print_sequence(count)] write: for each [i]
    from 0 to [count - 1], [fibonacci(i)] in decimal and one space. *)
Definition text (count : nat) : string :=
  fold_right String.append ""%string
    (map (fun i => (stdio.fmt_d (complex.fibonacci (Z.of_nat i)) ++ " ")%string)
       (seq 0 count)).

End sequence.

(** * Properties *)

(** ** Arithmetic modulo [2^32] *)

Section WrapFacts.

Lemma modulus_pos : 0 < cint.modulus.
Proof. reflexivity. Qed.

Lemma modulus_double : cint.modulus = 2 * cint.half_modulus.
Proof. reflexivity. Qed.

Lemma INT_MIN_eq : cint.INT_MIN = -2147483648.
Proof. reflexivity. Qed.

Lemma INT_MAX_eq : cint.INT_MAX = 2147483647.
Proof. reflexivity. Qed.

(** [wrap z] differs from [z] by a multiple of the modulus. *)
Lemma wrap_spec (z : Z) : exists k, cint.wrap z = z + k * cint.modulus.
Proof.
  exists (- ((z + cint.half_modulus) / cint.modulus)).
  unfold cint.wrap.
  pose proof (Z.div_mod (z + cint.half_modulus) cint.modulus) as H.
  pose proof modulus_pos. lia.
Qed.

Lemma wrap_in_range (z : Z) : cint.in_range (cint.wrap z).
Proof.
  unfold cint.in_range, cint.wrap, cint.INT_MIN, cint.INT_MAX.
  pose proof (Z.mod_pos_bound (z + cint.half_modulus) cint.modulus modulus_pos).
  pose proof modulus_double. lia.
Qed.

Lemma wrap_small (z : Z) : cint.in_range z -> cint.wrap z = z.
Proof.
  unfold cint.in_range, cint.wrap, cint.INT_MIN, cint.INT_MAX. intros H.
  pose proof modulus_double.
  rewrite Z.mod_small by lia. lia.
Qed.

(** Two integers that differ by a multiple of the modulus wrap to the
    same [int]. *)
Lemma wrap_congr (a b k : Z) : a = b + k * cint.modulus -> cint.wrap a = cint.wrap b.
Proof.
  intros ->. unfold cint.wrap.
  replace (b + k * cint.modulus + cint.half_modulus)
    with (b + cint.half_modulus + k * cint.modulus) by lia.
  now rewrite Z.mod_add by (pose proof modulus_pos; lia).
Qed.

Lemma wrap_add (a b : Z) : cint.wrap (cint.wrap a + cint.wrap b) = cint.wrap (a + b).
Proof.
  destruct (wrap_spec a) as [ka Ha], (wrap_spec b) as [kb Hb].
  apply wrap_congr with (k := ka + kb). lia.
Qed.

Lemma wrap_neg (a : Z) : cint.wrap (- cint.wrap a) = cint.wrap (- a).
Proof.
  destruct (wrap_spec a) as [ka Ha].
  apply wrap_congr with (k := - ka). lia.
Qed.

End WrapFacts.

(** Linear arithmetic with the bounds of [int] as numbers. *)
Ltac int_lia :=
  unfold cint.in_range in *; rewrite ?INT_MIN_eq, ?INT_MAX_eq in *; lia.

(** ** utils.c *)

(** C7. [add(a, b) == add(b, a)] for all [a], [b]: the wrapped sum does not
    depend on the order of the operands. *)
Theorem add_comm (a b : Z) : utils.add a b = utils.add b a.
Proof. unfold utils.add, cint.add. now rewrite Z.add_comm. Qed.

(** C6. [subtract(a, b) == - subtract(b, a)] for all [a], [b], the negation
    being that of [int]: when [b - a] is [INT_MIN] both sides are
    [INT_MIN]. *)
Theorem subtract_antisym (a b : Z) :
  utils.subtract a b = cint.neg (utils.subtract b a).
Proof.
  unfold utils.subtract, cint.neg, cint.sub.
  rewrite wrap_neg. f_equal. lia.
Qed.

(** The case of C6 in which [b - a] is the least [int]. *)
Example subtract_antisym_int_min :
  utils.subtract cint.INT_MIN 0 = cint.INT_MIN
  /\ utils.subtract 0 cint.INT_MIN = cint.INT_MIN
  /\ cint.neg (utils.subtract cint.INT_MIN 0) = cint.INT_MIN.
Proof. repeat split; reflexivity. Qed.

Lemma rem_2_cases (n : Z) :
  (Z.rem n 2 = 0 /\ (2 | n)) \/ ((Z.rem n 2 = 1 \/ Z.rem n 2 = -1) /\ ~ (2 | n)).
Proof.
  pose proof (Z.rem_divide n 2 ltac:(lia)) as Hd.
  pose proof (Z.rem_bound_abs n 2 ltac:(lia)) as Hb.
  destruct (Z.eq_dec (Z.rem n 2) 0) as [E | E].
  - left. split; [exact E | now apply Hd].
  - right. split; [lia | intros D; apply E; now apply Hd].
Qed.

(** C4. [is_even(n)] is 1 when [n] is a multiple of 2 and 0 when it is not,
    for negative [n] as well: the remainder of an odd negative [n] is
    [-1], which differs from 0 too. *)
Theorem is_even_spec (n : Z) :
  ((2 | n) -> utils.is_even n = 1) /\ (~ (2 | n) -> utils.is_even n = 0).
Proof.
  unfold utils.is_even, cint.eq, cint.rem.
  destruct (rem_2_cases n) as [[E D] | [E D]].
  - rewrite E. split; [reflexivity | contradiction].
  - split; [contradiction | destruct E as [-> | ->]; reflexivity].
Qed.

(** ** math_utils.c *)

Lemma square_sum_wrap (a b : Z) :
  math_utils.square_sum a b = cint.wrap (a * a + b * b).
Proof. unfold math_utils.square_sum, cint.add, cint.mul. apply wrap_add. Qed.

(** Without overflow [square_sum] is the sum of the squares itself. *)
Lemma square_sum_exact (a b : Z) :
  cint.in_range (a * a + b * b) -> math_utils.square_sum a b = a * a + b * b.
Proof. intros H. rewrite square_sum_wrap. now apply wrap_small. Qed.

(** C8. [square_sum(a, b)] is the [int] that [a*a + b*b] wraps to, and
    [square_sum(3, 4)] is 25. *)
Theorem square_sum_spec :
  (forall a b : Z, math_utils.square_sum a b = cint.wrap (a * a + b * b))
  /\ math_utils.square_sum 3 4 = 25.
Proof. split; [exact square_sum_wrap | reflexivity]. Qed.

(** ** Conversion to [double] and division by [2.0] *)

Section DoubleFacts.

(** The constant [2.0] is the [double] of the integer 2. *)
Example two_is_2 :
  double.two = double.of_int 2 /\ (double.to_Q double.two == 2)%Q.
Proof. split; reflexivity. Qed.

Lemma digits2_pos_size (p : positive) : digits2_pos p = Pos.size p.
Proof. induction p; cbn; congruence. Qed.

Lemma digits2_pos_shift (p k : positive) :
  digits2_pos (Pos.iter xO p k) = (digits2_pos p + k)%positive.
Proof.
  induction k as [| k IH] using Pos.peano_ind.
  - cbn. lia.
  - rewrite Pos.iter_succ. cbn [digits2_pos]. rewrite IH. lia.
Qed.

Lemma Zpos_shift (p k : positive) :
  Z.pos (Pos.iter xO p k) = Z.pos p * 2 ^ Z.pos k.
Proof.
  induction k as [| k IH] using Pos.peano_ind.
  - cbn. lia.
  - rewrite Pos.iter_succ, Pos2Z.inj_xO, IH, Pos2Z.inj_succ, Z.pow_succ_r; lia.
Qed.

Lemma digits2_pos_bound (p : positive) (n : Z) :
  0 <= n -> Z.pos p < 2 ^ n -> Z.pos (digits2_pos p) <= n.
Proof.
  intros Hn Hp. rewrite digits2_pos_size.
  pose proof (Pos.size_le p) as Hs.
  apply Pos2Z.pos_le_pos in Hs. rewrite Pos2Z.inj_pow in Hs.
  change (Z.pos p~0) with (2 * Z.pos p) in Hs.
  assert (H : 2 ^ Z.pos (Pos.size p) < 2 ^ (Z.succ n)).
  { rewrite Z.pow_succ_r by lia. lia. }
  apply Z.pow_lt_mono_r_iff in H; lia.
Qed.

(** Rounding leaves a 53-bit mantissa as it is when its exponent is that
    of a finite number. *)
Lemma round_normal (s : bool) (m : positive) (e : Z) :
  digits2_pos m = 53%positive -> -1074 <= e <= 971 ->
  binary_round_aux double.prec double.emax s (Z.pos m) e loc_Exact
  = S754_finite s m e.
Proof.
  intros Hd He.
  assert (Hs : shr_fexp double.prec double.emax (Z.pos m) e loc_Exact
               = ({| shr_m := Z.pos m; shr_r := false; shr_s := false |}, e)).
  { unfold shr_fexp, Zdigits2, fexp, emin, double.prec, double.emax.
    rewrite Hd.
    replace (Z.max (53 + e - 53) (3 - 1024 - 53) - e) with 0 by lia.
    reflexivity. }
  unfold binary_round_aux. rewrite Hs.
  cbn [shr_m loc_of_shr_record round_nearest_even].
  rewrite Hs. cbn [shr_m].
  unfold double.emax, double.prec.
  destruct (Z.leb_spec e (1024 - 53)); [reflexivity | lia].
Qed.

(** The conversion of a nonzero integer of magnitude [p < 2^53]: the
    mantissa is [p] shifted to 53 bits; nothing is rounded off. *)
Lemma round_small (s : bool) (p : positive) :
  Z.pos (digits2_pos p) < 53 ->
  binary_round double.prec double.emax s p 0
  = S754_finite s (Pos.iter xO p (Z.to_pos (53 - Z.pos (digits2_pos p))))
      (Z.pos (digits2_pos p) - 53).
Proof.
  intros Hd. set (d := digits2_pos p) in *.
  assert (Hf : fexp double.prec double.emax (Z.pos d + 0) = Z.pos d - 53).
  { unfold fexp, emin, double.prec, double.emax. lia. }
  unfold binary_round. fold d. rewrite Hf.
  assert (Ha : shl_align p 0 (Z.pos d - 53)
               = (Pos.iter xO p (Z.to_pos (53 - Z.pos d)), Z.pos d - 53)).
  { unfold shl_align. rewrite Z.sub_0_r.
    destruct (Z.pos d - 53) as [| q | q] eqn:E; try lia.
    do 2 f_equal. lia. }
  rewrite Ha. apply round_normal; [| lia].
  rewrite digits2_pos_shift. fold d. lia.
Qed.

(** Dividing a normal number by [2.0] lowers its exponent by one. *)
Lemma div_two_normal (s : bool) (m : positive) (e : Z) :
  digits2_pos m = 53%positive -> -1072 <= e <= 971 ->
  double.div (S754_finite s m e) double.two = S754_finite s m (e - 1).
Proof.
  intros Hd He.
  assert (Hc : SFdiv_core_binary double.prec double.emax
                 (Z.pos m) e (Z.pos (2 ^ 52)) (-51)
               = (Z.pos m~0, e - 2, loc_Exact)).
  { unfold SFdiv_core_binary, Zdigits2. rewrite Hd.
    change (digits2_pos (2 ^ 52)) with 53%positive.
    assert (He' : Z.min (fexp double.prec double.emax (53 + e - (53 + -51)))
                    (e - -51) = e - 2).
    { unfold fexp, emin, double.prec, double.emax. lia. }
    rewrite He'. replace (e - -51 - (e - 2)) with 53 by lia.
    cbv zeta. rewrite Z.shiftl_mul_pow2 by lia.
    assert (Hq : Z.div_eucl (Z.pos m * 2 ^ 53) (Z.pos (2 ^ 52))
                 = (Z.pos m~0, 0)).
    { pose proof (Z_div_mod (Z.pos m * 2 ^ 53) (Z.pos (2 ^ 52)) ltac:(lia)) as H.
      destruct (Z.div_eucl _ _) as [q r].
      change (Z.pos (2 ^ 52)) with (2 ^ 52) in H.
      change (2 ^ 53) with (2 * 2 ^ 52) in H.
      change (Z.pos m~0) with (2 * Z.pos m).
      assert (q = 2 * Z.pos m) by nia.
      f_equal; lia. }
    rewrite Hq. reflexivity. }
  unfold double.div, SFdiv, double.two. rewrite Hc.
  assert (Hs : shr_fexp double.prec double.emax (Z.pos m~0) (e - 2) loc_Exact
               = ({| shr_m := Z.pos m; shr_r := false; shr_s := false |}, e - 1)).
  { unfold shr_fexp, Zdigits2. cbn [digits2_pos]. rewrite Hd.
    assert (Hf : fexp double.prec double.emax (Z.pos (Pos.succ 53) + (e - 2))
                 - (e - 2) = 1).
    { unfold fexp, emin, double.prec, double.emax. lia. }
    rewrite Hf. cbn. f_equal. lia. }
  assert (Hs' : shr_fexp double.prec double.emax (Z.pos m) (e - 1) loc_Exact
               = ({| shr_m := Z.pos m; shr_r := false; shr_s := false |}, e - 1)).
  { unfold shr_fexp, Zdigits2, fexp, emin, double.prec, double.emax.
    rewrite Hd.
    replace (Z.max (53 + (e - 1) - 53) (3 - 1024 - 53) - (e - 1)) with 0 by lia.
    reflexivity. }
  unfold binary_round_aux. rewrite Hs.
  cbn [shr_m loc_of_shr_record round_nearest_even].
  rewrite Hs'. cbn [shr_m xorb].
  unfold double.emax, double.prec.
  destruct (Z.leb_spec (e - 1) (1024 - 53)); [| lia].
  now destruct s.
Qed.

Lemma valid_normal (s : bool) (m : positive) (e : Z) :
  digits2_pos m = 53%positive -> -1074 <= e <= 971 ->
  double.valid (S754_finite s m e) = true.
Proof.
  intros Hd He.
  unfold double.valid, valid_binary, bounded, canonical_mantissa.
  rewrite Hd. apply andb_true_intro.
  unfold fexp, emin, double.prec, double.emax. lia.
Qed.

(** An integer of magnitude below [2^52], converted and divided by [2.0],
    gives exactly its half. *)
Lemma half_exact (x : Z) :
  Z.abs x < 2 ^ 52 ->
  double.valid (double.div (double.of_int x) double.two) = true
  /\ double.is_finite (double.div (double.of_int x) double.two) = true
  /\ (double.to_Q (double.div (double.of_int x) double.two) == x # 2)%Q.
Proof.
  intros Hx. destruct x as [| p | p]; [repeat split; reflexivity | |].
  all: assert (Hd : Z.pos (digits2_pos p) < 53)
         by (apply Z.le_lt_trans with 52; [apply digits2_pos_bound |]; lia).
  all: unfold double.of_int, binary_normalize; rewrite round_small by exact Hd.
  all: rewrite div_two_normal by (rewrite ?digits2_pos_shift; lia).
  all: split; [apply valid_normal; rewrite ?digits2_pos_shift; lia |].
  all: split; [reflexivity |].
  all: unfold double.to_Q, Qeq; cbn [Qnum Qden].
  all: destruct (Z.leb_spec 0 (Z.pos (digits2_pos p) - 53 - 1)); [lia |].
  all: cbn [Qnum Qden]; rewrite Z2Pos.id by (apply Z.pow_pos_nonneg; lia).
  all: replace (- (Z.pos (digits2_pos p) - 53 - 1))
         with (Z.succ (53 - Z.pos (digits2_pos p))) by lia.
  all: rewrite Z.pow_succ_r by lia.
  all: pose proof (Zpos_shift p (Z.to_pos (53 - Z.pos (digits2_pos p)))) as Hm.
  all: rewrite Z2Pos.id in Hm by lia.
  all: lia.
Qed.

End DoubleFacts.

(** ** math_utils.c: [average] *)

Lemma average_exact (a b : Z) :
  double.valid (math_utils.average a b) = true
  /\ double.is_finite (math_utils.average a b) = true
  /\ (double.to_Q (math_utils.average a b) == cint.add a b # 2)%Q.
Proof.
  apply half_exact.
  pose proof (wrap_in_range (a + b)) as H. fold (cint.add a b) in H.
  assert (2 ^ 52 = 4503599627370496) by reflexivity. int_lia.
Qed.

(** C5. [average(a, b)] is the [double] quotient of the [int] sum
    [a + b] by [2.0]: a finite binary64 number whose value is exactly half
    the sum, halves of odd sums included; [average(4, 6)] is [5.0] and
    [average(5, 3)] is [4.0]. *)
Theorem average_spec :
  (forall a b : Z,
      double.valid (math_utils.average a b) = true
      /\ double.is_finite (math_utils.average a b) = true
      /\ (double.to_Q (math_utils.average a b) == cint.add a b # 2)%Q)
  /\ math_utils.average 4 6 = double.of_int 5
  /\ math_utils.average 5 3 = double.of_int 4
  /\ (double.to_Q (double.of_int 5) == 5)%Q
  /\ (double.to_Q (double.of_int 4) == 4)%Q.
Proof. split; [exact average_exact | repeat split]. Qed.

(** The quotient is not truncated: [average(5, 4)] is [4.5]. *)
Example average_5_4 :
  (double.to_Q (math_utils.average 5 4) == 9 # 2)%Q.
Proof. reflexivity. Qed.

(** The sum is an [int] sum: it wraps before it is converted. *)
Example average_wraps :
  (double.to_Q (math_utils.average cint.INT_MAX 1) == cint.INT_MIN # 2)%Q.
Proof. reflexivity. Qed.

(** ** complex.c: [fibonacci] *)

Section Fibonacci.

Import complex.

Lemma sub_exact (n k : Z) :
  cint.in_range n -> 0 <= k <= n -> cint.sub n k = n - k.
Proof.
  intros Hn Hk. apply wrap_small. int_lia.
Qed.

(** Past the guard both arguments of the recursive calls are below [n],
    also as natural numbers. *)
Lemma sub_decreases (n k : Z) :
  1 < n -> 0 < k <= 2 ->
  cint.sub n k < n /\ (Z.to_nat (cint.sub n k) < Z.to_nat n)%nat.
Proof.
  intros Hn Hk. unfold cint.sub, cint.wrap.
  pose proof modulus_double as Hm.
  assert (Hh : 2 < cint.half_modulus) by reflexivity.
  assert (Hx : 0 <= n - k + cint.half_modulus) by lia.
  assert (Hp : 0 < cint.modulus) by lia.
  pose proof (Z.mod_le _ _ Hx Hp). lia.
Qed.

Lemma fibonacci_base (n : Z) : n <= 1 -> fibonacci n = n.
Proof.
  intros H. rewrite fibonacci_equation.
  now apply Z.leb_le in H as ->.
Qed.

Lemma fibonacci_step (n : Z) :
  1 < n ->
  fibonacci n = cint.add (fibonacci (cint.sub n 1)) (fibonacci (cint.sub n 2)).
Proof.
  intros H. rewrite fibonacci_equation at 1.
  now apply Z.leb_gt in H as ->.
Qed.

(** A call that fits in [depth] frames returns what [fibonacci] denotes;
    [n + 1] frames are enough, one when [n] does not pass the guard. *)
Lemma fibonacci_depth_enough (depth : nat) :
  forall n : Z, (Z.to_nat n < depth)%nat ->
  fibonacci_depth depth n = Some (fibonacci n).
Proof.
  induction depth as [| depth IH]; intros n Hd; [lia |].
  cbn [fibonacci_depth]. destruct (Z.leb_spec n 1) as [Hle | Hgt].
  - now rewrite fibonacci_base.
  - pose proof (sub_decreases n 1 Hgt ltac:(lia)) as [_ H1].
    pose proof (sub_decreases n 2 Hgt ltac:(lia)) as [_ H2].
    rewrite !IH by lia. now rewrite <- fibonacci_step.
Qed.

Lemma fibonacci_calls_wf : well_founded fibonacci_calls.
Proof.
  apply (well_founded_lt_compat Z Z.to_nat).
  intros m n [k Hk | k Hk]; apply sub_decreases; lia.
Qed.

(** C2. A negative [n] does not pass the guard [n <= 1]: [fibonacci(n)]
    is [n]. *)
Theorem fibonacci_negative (n : Z) : n < 0 -> fibonacci n = n.
Proof. intros H. apply fibonacci_base. lia. Qed.

Lemma fibonacci_negative_witness : -5 < 0 /\ fibonacci (-5) = -5.
Proof. split; [lia | apply (fibonacci_negative (-5)); lia]. Defined.

(** C9. [fibonacci] returns for every [n]: a stack of [n + 1] frames is
    never exceeded.  Below 2 the guard returns [n] in the first frame; past
    the guard each call is on a smaller argument; no chain of calls
    descends for ever. *)
Theorem fibonacci_terminates :
  (forall n : Z, fibonacci_depth (S (Z.to_nat n)) n = Some (fibonacci n))
  /\ (forall n : Z, n < 2 -> fibonacci_depth 1 n = Some n)
  /\ (forall m n : Z, fibonacci_calls m n -> m < n)
  /\ well_founded fibonacci_calls.
Proof.
  split; [| split; [| split]].
  - intros n. apply fibonacci_depth_enough. lia.
  - intros n Hn. cbn [fibonacci_depth].
    now destruct (Z.leb_spec n 1); [| lia].
  - intros m n [k Hk | k Hk]; apply sub_decreases; lia.
  - exact fibonacci_calls_wf.
Qed.

Lemma fibonacci_terminates_witness :
  fibonacci_depth 1 (-7) = Some (-7)
  /\ fibonacci_depth (S (Z.to_nat 10)) 10 = Some (fibonacci 10)
  /\ cint.sub 10 2 < 10.
Proof.
  destruct fibonacci_terminates as (Hd & Hg & Hc & _).
  split; [apply (Hg (-7)); lia |].
  split; [exact (Hd 10) | apply (Hc (cint.sub 10 2) 10), calls_minus_2; lia].
Defined.

(** *** [fibonacci] and the Fibonacci sequence *)

Lemma F_step (k : nat) :
  sequence.F (S (S k)) = sequence.F (S k) + sequence.F k.
Proof.
  unfold sequence.F. cbn [sequence.fib_pair].
  destruct (sequence.fib_pair k) as [a b]. cbn. lia.
Qed.

Lemma F_nonneg (k : nat) : 0 <= sequence.F k /\ 0 <= sequence.F (S k).
Proof.
  induction k as [| k [IH0 IH1]]; [cbn; lia |].
  split; [assumption | rewrite F_step; lia].
Qed.

(** On its intended domain [fibonacci] is the Fibonacci sequence, reduced
    to an [int]. *)
Lemma fibonacci_sequence (k : nat) :
  Z.of_nat k <= cint.INT_MAX ->
  fibonacci (Z.of_nat k) = cint.wrap (sequence.F k).
Proof.
  enough (H : (Z.of_nat k <= cint.INT_MAX ->
               fibonacci (Z.of_nat k) = cint.wrap (sequence.F k))
              /\ (Z.of_nat (S k) <= cint.INT_MAX ->
                  fibonacci (Z.of_nat (S k)) = cint.wrap (sequence.F (S k))))
    by apply H.
  induction k as [| k [IH0 IH1]].
  - split; intros _; reflexivity.
  - split; [exact IH1 |]. intros Hk.
    assert (Hr : cint.in_range (Z.of_nat (S (S k)))) by int_lia.
    rewrite fibonacci_step, !sub_exact by (assumption || lia).
    replace (Z.of_nat (S (S k)) - 1) with (Z.of_nat (S k)) by lia.
    replace (Z.of_nat (S (S k)) - 2) with (Z.of_nat k) by lia.
    rewrite IH0, IH1 by lia. unfold cint.add.
    now rewrite wrap_add, F_step.
Qed.

Lemma in_rangeb_spec (z : Z) : cint.in_rangeb z = true <-> cint.in_range z.
Proof. unfold cint.in_rangeb, cint.in_range. lia. Qed.

(** Up to [n = 46] no addition overflows: the result is the Fibonacci
    number itself. *)
Lemma fibonacci_sequence_exact (k : nat) :
  (k <= 46)%nat -> fibonacci (Z.of_nat k) = sequence.F k.
Proof.
  intros Hk.
  assert (Hall : forallb (fun i => cint.in_rangeb (sequence.F i)) (seq 0 47) = true)
    by (vm_compute; reflexivity).
  rewrite forallb_forall in Hall.
  rewrite fibonacci_sequence.
  - apply wrap_small, in_rangeb_spec, Hall, in_seq. lia.
  - int_lia.
Qed.

(** The first overflow: [F 47] is [2971215073], above [INT_MAX]. *)
Example fibonacci_47 :
  sequence.F 47 = 2971215073 /\ fibonacci 47 = -1323752223.
Proof.
  split; [reflexivity |].
  change 47 with (Z.of_nat 47). rewrite fibonacci_sequence.
  - vm_compute. reflexivity.
  - vm_compute. discriminate.
Qed.

(** C1. [fibonacci] computes the Fibonacci sequence in [int] arithmetic:
    [fibonacci(k)] is the [int] that the [k]-th Fibonacci number wraps to;
    for every [int] [n >= 2], [fibonacci(n)] is the [int] sum of
    [fibonacci(n-1)] and [fibonacci(n-2)]; [fibonacci] maps 0, 1, 5 and 10
    to 0, 1, 5 and 55. *)
Theorem fibonacci_recurrence :
  (forall n : Z, cint.in_range n -> 2 <= n ->
     fibonacci n = cint.add (fibonacci (n - 1)) (fibonacci (n - 2)))
  /\ (forall k : nat, Z.of_nat k <= cint.INT_MAX ->
        fibonacci (Z.of_nat k) = cint.wrap (sequence.F k))
  /\ fibonacci 0 = 0 /\ fibonacci 1 = 1
  /\ fibonacci 5 = 5 /\ fibonacci 10 = 55.
Proof.
  split; [| split; [exact fibonacci_sequence |]].
  - intros n Hr Hn. rewrite fibonacci_step by lia.
    now rewrite !sub_exact by (assumption || lia).
  - repeat split; vm_compute; reflexivity.
Qed.

Lemma fibonacci_recurrence_witness :
  fibonacci 7 = cint.add (fibonacci 6) (fibonacci 5).
Proof.
  apply (proj1 fibonacci_recurrence 7); int_lia.
Defined.

End Fibonacci.

(** ** complex.c: [print_sequence] *)

Section PrintSequence.

Import complex.
Local Open Scope string_scope.

Lemma append_assoc (s t u : string) : (s ++ t) ++ u = s ++ (t ++ u).
Proof. induction s as [| c s IH]; cbn; [reflexivity | now rewrite IH]. Qed.

Lemma append_nil_r (s : string) : s ++ "" = s.
Proof. induction s as [| c s IH]; cbn; [reflexivity | now rewrite IH]. Qed.

(** The items [fibonacci(a)], ..., [fibonacci(a + k - 1)] as printed. *)
Let items (a k : nat) : string :=
  fold_right String.append ""
    (map (fun i => stdio.fmt_d (fibonacci (Z.of_nat i)) ++ " ") (seq a k)).

(** The loop entered at [i = a] with [k] iterations to go appends the [k]
    items from [a] on; it evaluates its test [k + 1] times. *)
Lemma print_sequence_loop_runs (k : nat) :
  forall (a fuel : nat) (count : Z) (out : string),
    Z.of_nat (a + k) = count -> count <= cint.INT_MAX -> (k < fuel)%nat ->
    print_sequence_loop fuel count (Z.of_nat a) out = Some (out ++ items a k).
Proof.
  induction k as [| k IH]; intros a fuel count out Hc Hmax Hf;
    (destruct fuel as [| fuel]; [lia |]); cbn [print_sequence_loop].
  - destruct (Z.ltb_spec (Z.of_nat a) count); [lia |].
    unfold items. cbn. now rewrite append_nil_r.
  - destruct (Z.ltb_spec (Z.of_nat a) count); [| lia].
    assert (Hi : cint.add (Z.of_nat a) 1 = Z.of_nat (S a)).
    { unfold cint.add. rewrite wrap_small; [lia | int_lia]. }
    rewrite Hi, (IH (S a) fuel count) by lia.
    unfold items. cbn [seq map fold_right].
    now rewrite !append_assoc.
Qed.

Lemma print_sequence_runs (count : Z) (fuel : nat) (out : string) :
  0 <= count <= cint.INT_MAX -> (Z.to_nat count < fuel)%nat ->
  print_sequence fuel count out = Some (out ++ sequence.text (Z.to_nat count)).
Proof.
  intros Hc Hf. unfold print_sequence.
  change 0 with (Z.of_nat 0).
  now apply print_sequence_loop_runs; [lia | lia |].
Qed.

(** A count that is not positive fails the first test of the loop. *)
Lemma print_sequence_loop_skips (fuel : nat) (count i : Z) (out : string) :
  count <= i -> print_sequence_loop (S fuel) count i out = Some out.
Proof.
  intros H. cbn [print_sequence_loop].
  now destruct (Z.ltb_spec i count); [lia |].
Qed.

(** *** The characters written *)

Lemma all_chars_app (p : ascii -> bool) (s t : string) :
  stdio.all_chars p (s ++ t) = stdio.all_chars p s && stdio.all_chars p t.
Proof.
  induction s as [| c s IH]; cbn; [reflexivity |].
  now rewrite IH, andb_assoc.
Qed.

Lemma all_chars_In (p : ascii -> bool) (s : string) (c : ascii) :
  stdio.all_chars p s = true -> In c (list_ascii_of_string s) -> p c = true.
Proof.
  induction s as [| d s IH]; cbn; [contradiction |].
  intros [Hd Hs]%andb_prop [<- | Hin]; auto.
Qed.

Lemma string_of_uint_chars (d : Decimal.uint) :
  stdio.all_chars stdio.digit_sign_space (NilEmpty.string_of_uint d) = true.
Proof. induction d; cbn [NilEmpty.string_of_uint stdio.all_chars]; auto. Qed.

Lemma fmt_d_chars (x : Z) :
  stdio.all_chars stdio.digit_sign_space (stdio.fmt_d x) = true.
Proof.
  unfold stdio.fmt_d, NilZero.string_of_int, NilZero.string_of_uint.
  destruct (Z.to_int x) as [[] | []];
    try reflexivity; cbn [stdio.all_chars]; now rewrite string_of_uint_chars.
Qed.

Lemma text_chars (count : nat) :
  stdio.all_chars stdio.digit_sign_space (sequence.text count) = true.
Proof.
  unfold sequence.text. generalize 0%nat.
  induction count as [| k IH]; intros a; cbn [seq map fold_right];
    [reflexivity |].
  now rewrite !all_chars_app, fmt_d_chars, IH.
Qed.

Lemma text_no_newline (count : nat) :
  ~ In stdio.newline (list_ascii_of_string (sequence.text count)).
Proof.
  intros Hin. apply (all_chars_In _ _ _ (text_chars count)) in Hin.
  discriminate Hin.
Qed.

(** C3. With [0 <= count], [print_sequence(count)] appends to the output
    [fibonacci(0)], ..., [fibonacci(count - 1)], each followed by one space,
    and no newline; for [count = 10] the text is
    ["0 1 1 2 3 5 8 13 21 34 "]. *)
Theorem print_sequence_spec :
  (forall (count : Z) (fuel : nat) (out : string),
      0 <= count <= cint.INT_MAX -> (Z.to_nat count < fuel)%nat ->
      print_sequence fuel count out
      = Some (out ++ sequence.text (Z.to_nat count)))
  /\ (forall count : nat,
        ~ In stdio.newline (list_ascii_of_string (sequence.text count)))
  /\ sequence.text 10 = "0 1 1 2 3 5 8 13 21 34 "
  /\ print_sequence 11 10 "" = Some "0 1 1 2 3 5 8 13 21 34 ".
Proof.
  split; [exact print_sequence_runs |].
  split; [exact text_no_newline |].
  split; vm_compute; reflexivity.
Qed.

Lemma print_sequence_spec_witness :
  print_sequence 4 3 "fib: " = Some ("fib: " ++ sequence.text (Z.to_nat 3)).
Proof.
  apply (proj1 print_sequence_spec 3 4%nat "fib: "); [int_lia | cbn; lia].
Defined.

(** C10. With [count <= 0] the first test [0 < count] of the loop fails:
    [print_sequence(count)] leaves the output as it is. *)
Theorem print_sequence_nothing (count : Z) (fuel : nat) (out : string) :
  count <= 0 -> print_sequence (S fuel) count out = Some out.
Proof. intros H. now apply print_sequence_loop_skips. Qed.

Lemma print_sequence_nothing_witness :
  -3 <= 0 /\ print_sequence 1 (-3) "" = Some "".
Proof.
  split; [lia | apply (print_sequence_nothing (-3) 0 ""); lia].
Defined.

(** [main] of complex.c exits with status 0 after writing the first ten
    numbers. *)
Example main_output : main 11 "" = Some (0, "0 1 1 2 3 5 8 13 21 34 ").
Proof. vm_compute. reflexivity. Qed.

End PrintSequence.

(** * Further properties *)

(** ** utils.c: the algebra of [add], [subtract] and [multiply] *)

Section UtilsAlgebra.

Lemma wrap_sub (a b : Z) : cint.wrap (cint.wrap a - cint.wrap b) = cint.wrap (a - b).
Proof.
  destruct (wrap_spec a) as [ka Ha], (wrap_spec b) as [kb Hb].
  apply wrap_congr with (k := ka - kb). lia.
Qed.

Lemma wrap_mul (a b : Z) : cint.wrap (cint.wrap a * cint.wrap b) = cint.wrap (a * b).
Proof.
  destruct (wrap_spec a) as [ka Ha], (wrap_spec b) as [kb Hb].
  apply wrap_congr with (k := ka * b + kb * a + ka * kb * cint.modulus).
  rewrite Ha, Hb. ring.
Qed.

Lemma wrap_wrap (a : Z) : cint.wrap (cint.wrap a) = cint.wrap a.
Proof. apply wrap_small, wrap_in_range. Qed.

(** Wrapping one operand first does not change a wrapped sum, difference
    or product. *)
Lemma wrap_add_l (a b : Z) : cint.wrap (cint.wrap a + b) = cint.wrap (a + b).
Proof.
  destruct (wrap_spec a) as [ka Ha].
  apply wrap_congr with (k := ka). lia.
Qed.

Lemma wrap_add_r (a b : Z) : cint.wrap (a + cint.wrap b) = cint.wrap (a + b).
Proof. rewrite Z.add_comm, wrap_add_l. f_equal. lia. Qed.

Lemma wrap_sub_l (a b : Z) : cint.wrap (cint.wrap a - b) = cint.wrap (a - b).
Proof.
  destruct (wrap_spec a) as [ka Ha].
  apply wrap_congr with (k := ka). lia.
Qed.

Lemma wrap_mul_l (a b : Z) : cint.wrap (cint.wrap a * b) = cint.wrap (a * b).
Proof.
  destruct (wrap_spec a) as [ka Ha].
  apply wrap_congr with (k := ka * b). rewrite Ha. ring.
Qed.

Lemma wrap_mul_r (a b : Z) : cint.wrap (a * cint.wrap b) = cint.wrap (a * b).
Proof. rewrite Z.mul_comm, wrap_mul_l. f_equal. lia. Qed.

(** X1. [multiply(a, b) == multiply(b, a)] for all [a], [b]. *)
Theorem multiply_comm (a b : Z) : utils.multiply a b = utils.multiply b a.
Proof. unfold utils.multiply, cint.mul. now rewrite Z.mul_comm. Qed.

(** X2. [add] is associative, overflow of either intermediate sum
    included. *)
Theorem add_assoc (a b c : Z) :
  utils.add (utils.add a b) c = utils.add a (utils.add b c).
Proof.
  unfold utils.add, cint.add.
  rewrite wrap_add_l, wrap_add_r. f_equal. lia.
Qed.

(** X3. [multiply] is associative, overflow of either intermediate product
    included. *)
Theorem multiply_assoc (a b c : Z) :
  utils.multiply (utils.multiply a b) c = utils.multiply a (utils.multiply b c).
Proof.
  unfold utils.multiply, cint.mul.
  rewrite wrap_mul_l, wrap_mul_r. f_equal. lia.
Qed.

(** X4. [multiply] distributes over [add] and over [subtract], whatever
    overflows. *)
Theorem multiply_distr (a b c : Z) :
  utils.multiply a (utils.add b c)
  = utils.add (utils.multiply a b) (utils.multiply a c)
  /\ utils.multiply a (utils.subtract b c)
     = utils.subtract (utils.multiply a b) (utils.multiply a c).
Proof.
  unfold utils.multiply, utils.add, utils.subtract, cint.mul, cint.add, cint.sub.
  rewrite !wrap_mul_r, wrap_add, wrap_sub.
  split; f_equal; lia.
Qed.

(** X5. [subtract] undoes [add] and [add] undoes [subtract] on every
    [int], also when the intermediate result overflowed. *)
Theorem subtract_add_cancel (a b : Z) :
  cint.in_range a ->
  utils.subtract (utils.add a b) b = a /\ utils.add (utils.subtract a b) b = a.
Proof.
  intros Ha. unfold utils.subtract, utils.add, cint.sub, cint.add.
  rewrite wrap_sub_l, wrap_add_l.
  split; (rewrite <- (wrap_small a Ha) at 2; f_equal; lia).
Qed.

Lemma subtract_add_cancel_witness :
  utils.subtract (utils.add cint.INT_MAX 1) 1 = cint.INT_MAX
  /\ utils.add (utils.subtract cint.INT_MAX 1) 1 = cint.INT_MAX.
Proof. apply (subtract_add_cancel cint.INT_MAX 1). int_lia. Defined.

(** X6. The sum of two non-negative [int]s is negative exactly when it
    does not fit an [int]; when it fits, [add] returns it. *)
Theorem add_overflow_sign (a b : Z) :
  0 <= a <= cint.INT_MAX -> 0 <= b <= cint.INT_MAX ->
  (utils.add a b < 0 <-> cint.INT_MAX < a + b)
  /\ (a + b <= cint.INT_MAX -> utils.add a b = a + b).
Proof.
  intros Ha Hb. unfold utils.add, cint.add.
  destruct (Z_le_gt_dec (a + b) cint.INT_MAX) as [Hfit | Hover].
  - rewrite wrap_small by int_lia. split; [int_lia | reflexivity].
  - rewrite (wrap_congr (a + b) (a + b - cint.modulus) 1) by lia.
    assert (Hm : cint.modulus = 4294967296) by reflexivity.
    rewrite wrap_small by int_lia. split; [int_lia | lia].
Qed.

Lemma add_overflow_sign_witness :
  (utils.add cint.INT_MAX 1 < 0 <-> cint.INT_MAX < cint.INT_MAX + 1)
  /\ (cint.INT_MAX + 1 <= cint.INT_MAX -> utils.add cint.INT_MAX 1 = cint.INT_MAX + 1).
Proof. apply (add_overflow_sign cint.INT_MAX 1); int_lia. Defined.

End UtilsAlgebra.

(** ** utils.c: [is_even] and the arithmetic functions *)

Section Parity.

Lemma divide_2_even (n : Z) : (2 | n) <-> Z.even n = true.
Proof.
  rewrite Z.even_spec. split; intros [k Hk]; exists k; lia.
Qed.

(** [is_even] is the parity test of [Z], as an [int]. *)
Lemma is_even_even (n : Z) : utils.is_even n = cint.of_bool (Z.even n).
Proof.
  unfold utils.is_even, cint.eq, cint.rem.
  destruct (rem_2_cases n) as [[E D] | [E D]].
  - rewrite E. apply divide_2_even in D. now rewrite D.
  - destruct (Z.even n) eqn:Ev; [now apply divide_2_even in Ev |].
    destruct E as [-> | ->]; reflexivity.
Qed.

(** The modulus is even: wrapping keeps the parity. *)
Lemma even_wrap (z : Z) : Z.even (cint.wrap z) = Z.even z.
Proof.
  destruct (wrap_spec z) as [k ->].
  rewrite modulus_double.
  replace (z + k * (2 * cint.half_modulus)) with (z + 2 * (k * cint.half_modulus)) by lia.
  now rewrite Z.even_add_mul_2.
Qed.

(** X7. Parity alternates along [add(n, 1)], also from [INT_MAX] to
    [INT_MIN]: [is_even(add(n, 1))] is [1 - is_even(n)]. *)
Theorem is_even_succ (n : Z) :
  utils.is_even (utils.add n 1) = 1 - utils.is_even n.
Proof.
  rewrite !is_even_even. unfold utils.add, cint.add.
  rewrite even_wrap, Z.even_add.
  now destruct (Z.even n).
Qed.

(** X8. A sum or a difference is even exactly when its operands have the
    same parity, whatever overflows. *)
Theorem is_even_add (a b : Z) :
  (utils.is_even (utils.add a b) = 1 <-> utils.is_even a = utils.is_even b)
  /\ (utils.is_even (utils.subtract a b) = 1 <-> utils.is_even a = utils.is_even b).
Proof.
  rewrite !is_even_even.
  unfold utils.add, utils.subtract, cint.add, cint.sub.
  rewrite !even_wrap, Z.even_add, Z.even_sub.
  destruct (Z.even a), (Z.even b); cbn; split; split; congruence.
Qed.

(** X9. A product is even exactly when one of its factors is, whatever
    overflows. *)
Theorem is_even_multiply (a b : Z) :
  utils.is_even (utils.multiply a b) = 1
  <-> utils.is_even a = 1 \/ utils.is_even b = 1.
Proof.
  rewrite !is_even_even. unfold utils.multiply, cint.mul.
  rewrite even_wrap, Z.even_mul.
  destruct (Z.even a), (Z.even b); cbn; intuition congruence.
Qed.

(** X10. [square_sum(a, b)] has the parity of [add(a, b)]. *)
Theorem is_even_square_sum (a b : Z) :
  utils.is_even (math_utils.square_sum a b) = utils.is_even (utils.add a b).
Proof.
  rewrite !is_even_even, square_sum_wrap. unfold utils.add, cint.add.
  rewrite !even_wrap, !Z.even_add, !Z.even_mul.
  now destruct (Z.even a), (Z.even b).
Qed.

End Parity.

(** ** math_utils.c: [square_sum] *)

Section SquareSum.

(** X11. [square_sum] does not depend on the order of its arguments nor
    on the sign of either, the negation being that of [int]. *)
Theorem square_sum_symmetric (a b : Z) :
  math_utils.square_sum a b = math_utils.square_sum b a
  /\ math_utils.square_sum (cint.neg a) b = math_utils.square_sum a b
  /\ math_utils.square_sum a (cint.neg b) = math_utils.square_sum a b.
Proof.
  rewrite !square_sum_wrap. unfold cint.neg.
  split; [f_equal; lia |].
  split.
  - rewrite <- (wrap_add (cint.wrap (- a) * cint.wrap (- a))), wrap_mul,
      <- (wrap_add (a * a)).
    do 3 f_equal. lia.
  - rewrite <- (wrap_add _ (cint.wrap (- b) * cint.wrap (- b))), wrap_mul,
      <- (wrap_add _ (b * b)).
    do 3 f_equal. lia.
Qed.

(** X12. For arguments of magnitude at most 32767 nothing overflows:
    [square_sum(a, b)] is [a*a + b*b], it is not negative, and it is 0
    only for [a = b = 0]. *)
Theorem square_sum_small (a b : Z) :
  Z.abs a <= 32767 -> Z.abs b <= 32767 ->
  math_utils.square_sum a b = a * a + b * b
  /\ 0 <= math_utils.square_sum a b
  /\ (math_utils.square_sum a b = 0 <-> a = 0 /\ b = 0).
Proof.
  intros Ha Hb.
  assert (H : math_utils.square_sum a b = a * a + b * b).
  { apply square_sum_exact. unfold cint.in_range.
    rewrite INT_MIN_eq, INT_MAX_eq. nia. }
  rewrite H. split; [reflexivity |]. split; [nia |].
  split; [nia | intros [-> ->]; reflexivity].
Qed.

Lemma square_sum_small_witness :
  math_utils.square_sum (-32767) 32767 = -32767 * -32767 + 32767 * 32767
  /\ 0 <= math_utils.square_sum (-32767) 32767
  /\ (math_utils.square_sum (-32767) 32767 = 0 <-> -32767 = 0 /\ 32767 = 0).
Proof. apply (square_sum_small (-32767) 32767); cbn; lia. Defined.

End SquareSum.

(** The bound of X12 is the largest one: at 32768 the sum of the squares
    is [2^31]. *)
Example square_sum_32768 :
  math_utils.square_sum 32768 32768 = cint.INT_MIN.
Proof. reflexivity. Qed.

(** ** math_utils.c: [average] *)

Section Average.

(** X13. When [a + b] fits an [int], [average(a, b)] is exactly the
    midpoint of [a] and [b] and lies between them. *)
Theorem average_midpoint (a b : Z) :
  cint.in_range (a + b) -> a <= b ->
  (double.to_Q (math_utils.average a b) == (a + b) # 2)%Q
  /\ (inject_Z a <= double.to_Q (math_utils.average a b) <= inject_Z b)%Q.
Proof.
  intros Hr Hab.
  destruct (average_exact a b) as (_ & _ & H).
  unfold cint.add in H. rewrite wrap_small in H by exact Hr.
  split; [exact H |]. rewrite H.
  unfold Qle, inject_Z. cbn [Qnum Qden]. lia.
Qed.

Lemma average_midpoint_witness :
  (double.to_Q (math_utils.average (-3) 8) == (-3 + 8) # 2)%Q
  /\ (inject_Z (-3) <= double.to_Q (math_utils.average (-3) 8) <= inject_Z 8)%Q.
Proof. apply (average_midpoint (-3) 8); [int_lia | lia]. Defined.

(** Halving the [double] of an even integer gives the [double] of its
    half. *)
Lemma half_even (y : Z) :
  Z.abs y < 2 ^ 51 ->
  double.div (double.of_int (2 * y)) double.two = double.of_int y.
Proof.
  intros Hy. destruct y as [| q | q]; [reflexivity | |].
  all: assert (Hd : Z.pos (digits2_pos q) < 52)
         by (apply Z.le_lt_trans with 51; [apply digits2_pos_bound |]; lia).
  all: cbn [Z.mul Pos.mul]; unfold double.of_int, binary_normalize.
  all: rewrite !round_small by (cbn [digits2_pos]; lia).
  all: rewrite div_two_normal
         by (rewrite ?digits2_pos_shift; cbn [digits2_pos]; lia).
  all: cbn [digits2_pos].
  all: replace (Z.to_pos (53 - Z.pos (digits2_pos q)))
         with (Pos.succ (Z.to_pos (53 - Z.pos (Pos.succ (digits2_pos q)))))
         by lia.
  all: rewrite Pos.iter_succ_r; f_equal; lia.
Qed.

(** X14. When [is_even] accepts the sum [add(a, b)], [average(a, b)] is
    the [double] of the [int] quotient of the sum by 2. *)
Theorem average_even_sum (a b : Z) :
  utils.is_even (utils.add a b) = 1 ->
  math_utils.average a b = double.of_int (Z.quot (utils.add a b) 2).
Proof.
  intros He. unfold math_utils.average. fold (utils.add a b).
  pose proof (wrap_in_range (a + b)) as Hr. fold (cint.add a b) in Hr.
  fold (utils.add a b) in Hr.
  set (s := utils.add a b) in *.
  assert (Hs : s = 2 * Z.quot s 2).
  { apply Z.quot_exact; [lia |].
    destruct (rem_2_cases s) as [[E _] | [_ D]]; [exact E |].
    exfalso. apply D, divide_2_even.
    rewrite is_even_even in He. now destruct (Z.even s). }
  rewrite Hs at 1. apply half_even.
  assert (2 ^ 51 = 2251799813685248) by reflexivity. int_lia.
Qed.

Lemma average_even_sum_witness :
  math_utils.average 7 (-3) = double.of_int (Z.quot (utils.add 7 (-3)) 2).
Proof. apply (average_even_sum 7 (-3)). reflexivity. Defined.

End Average.

(** ** complex.c: more on [fibonacci] *)

Section FibonacciMore.

Import complex.

(** The Fibonacci numbers do not decrease. *)
Lemma F_mono (j k : nat) : (j <= k)%nat -> sequence.F j <= sequence.F k.
Proof.
  induction 1 as [| k Hjk IH]; [lia |].
  apply Z.le_trans with (1 := IH).
  destruct k as [| k]; [cbn; lia |].
  rewrite F_step. pose proof (F_nonneg k). lia.
Qed.

(** X15. For [0 <= m <= n <= 46] nothing overflows: [fibonacci(n)] is the
    [n]-th Fibonacci number, and [fibonacci] is non-negative and does not
    decrease. *)
Theorem fibonacci_small (m n : Z) :
  0 <= m <= n -> n <= 46 ->
  fibonacci n = sequence.F (Z.to_nat n)
  /\ 0 <= fibonacci m <= fibonacci n.
Proof.
  intros Hm Hn.
  assert (Hx : forall x, 0 <= x <= 46 -> fibonacci x = sequence.F (Z.to_nat x)).
  { intros x Hx. rewrite <- (Z2Nat.id x) at 1 by lia.
    apply fibonacci_sequence_exact. lia. }
  rewrite !Hx by lia. split; [reflexivity |]. split.
  - apply F_nonneg.
  - apply F_mono. lia.
Qed.

Lemma fibonacci_small_witness :
  fibonacci 46 = sequence.F (Z.to_nat 46)
  /\ 0 <= fibonacci 30 <= fibonacci 46.
Proof. apply (fibonacci_small 30 46); lia. Defined.

(** A stack of [max 1 n] frames is enough. *)
Lemma fibonacci_depth_fits (depth : nat) :
  forall n : Z, (Z.to_nat (Z.max 1 n) <= depth)%nat ->
  fibonacci_depth depth n = Some (fibonacci n).
Proof.
  induction depth as [| depth IH]; intros n Hd; [lia |].
  cbn [fibonacci_depth]. destruct (Z.leb_spec n 1) as [Hle | Hgt].
  - now rewrite fibonacci_base.
  - pose proof (sub_decreases n 1 Hgt ltac:(lia)) as [H1 _].
    pose proof (sub_decreases n 2 Hgt ltac:(lia)) as [H2 _].
    rewrite !IH by lia. now rewrite <- fibonacci_step.
Qed.

(** A smaller stack is exceeded. *)
Lemma fibonacci_depth_exceeded (depth : nat) :
  forall n : Z, cint.in_range n ->
  (depth < Z.to_nat (Z.max 1 n))%nat -> fibonacci_depth depth n = None.
Proof.
  induction depth as [| depth IH]; intros n Hr Hd; [reflexivity |].
  cbn [fibonacci_depth]. destruct (Z.leb_spec n 1) as [Hle | Hgt]; [lia |].
  rewrite IH; [reflexivity | rewrite sub_exact by (assumption || lia); int_lia |].
  rewrite sub_exact by (assumption || lia). lia.
Qed.

(** X16. The call [fibonacci(n)] needs a stack of exactly [max 1 n]
    frames: with fewer the stack is exceeded, with as many it returns. *)
Theorem fibonacci_depth_exact (depth : nat) (n : Z) :
  cint.in_range n ->
  (fibonacci_depth depth n = None <-> (depth < Z.to_nat (Z.max 1 n))%nat)
  /\ (fibonacci_depth depth n = Some (fibonacci n)
      <-> (Z.to_nat (Z.max 1 n) <= depth)%nat).
Proof.
  intros Hr.
  destruct (Nat.lt_ge_cases depth (Z.to_nat (Z.max 1 n))) as [Hlt | Hge].
  - rewrite fibonacci_depth_exceeded by assumption.
    split; split; (reflexivity || discriminate || lia || auto).
  - rewrite fibonacci_depth_fits by assumption.
    split; split; (reflexivity || discriminate || lia || auto).
Qed.

Lemma fibonacci_depth_exact_witness :
  (fibonacci_depth 9 10 = None <-> (9 < Z.to_nat (Z.max 1 10))%nat)
  /\ (fibonacci_depth 9 10 = Some (fibonacci 10)
      <-> (Z.to_nat (Z.max 1 10) <= 9)%nat).
Proof. apply (fibonacci_depth_exact 9 10). int_lia. Defined.

(** X17. Counting the calls: [fibonacci(n)] returns after one call when
    [n <= 1] and after [2 F(n+1) - 1] calls of [fibonacci] otherwise; the
    count grows like the Fibonacci numbers themselves. *)
Theorem fibonacci_traced_calls (depth : nat) (n : Z) :
  n <= cint.INT_MAX -> (Z.to_nat n < depth)%nat ->
  fibonacci_traced depth n
  = Some (fibonacci n,
          if n <=? 1 then 1 else 2 * sequence.F (S (Z.to_nat n)) - 1).
Proof.
  revert n. induction depth as [| depth IH]; intros n Hmax Hd; [lia |].
  cbn [fibonacci_traced]. destruct (Z.leb_spec n 1) as [Hle | Hgt].
  - now rewrite fibonacci_base.
  - assert (Hr : cint.in_range n) by int_lia.
    rewrite fibonacci_step by exact Hgt.
    rewrite !sub_exact by (assumption || lia).
    rewrite !IH by lia.
    do 2 f_equal.
    replace (Z.to_nat n) with (S (Z.to_nat (n - 1))) by lia.
    rewrite F_step.
    destruct (Z.leb_spec (n - 1) 1), (Z.leb_spec (n - 2) 1); try lia.
    + replace n with 2 by lia. reflexivity.
    + replace n with 3 by lia. reflexivity.
    + replace (Z.to_nat (n - 1)) with (S (Z.to_nat (n - 2))) by lia.
      rewrite F_step. lia.
Qed.

Lemma fibonacci_traced_calls_witness :
  fibonacci_traced 11 10
  = Some (fibonacci 10,
          if 10 <=? 1 then 1 else 2 * sequence.F (S (Z.to_nat 10)) - 1).
Proof. apply (fibonacci_traced_calls 11 10); [int_lia | cbn; lia]. Defined.

End FibonacciMore.

(** ** complex.c: more on [print_sequence] and [main] *)

Section PrintSequenceMore.

Import complex.
Local Open Scope string_scope.

(** The call [printf("%d ", x)] of the loop, through the model of
    [printf]. *)
Lemma printf_d_space (x : Z) :
  stdio.printf "%d " [x] = Some (stdio.fmt_d x ++ " ").
Proof. reflexivity. Qed.

(** With fuel for no more tests than iterations are left, the loop does
    not reach its exit. *)
Lemma print_sequence_loop_starves (fuel : nat) :
  forall (a : nat) (count : Z) (out : string),
    Z.of_nat a + Z.of_nat fuel <= count -> count <= cint.INT_MAX ->
    print_sequence_loop fuel count (Z.of_nat a) out = None.
Proof.
  induction fuel as [| fuel IH]; intros a count out Hc Hmax; [reflexivity |].
  cbn [print_sequence_loop].
  destruct (Z.ltb_spec (Z.of_nat a) count); [| lia].
  assert (Hi : cint.add (Z.of_nat a) 1 = Z.of_nat (S a)).
  { unfold cint.add. rewrite wrap_small; [lia | int_lia]. }
  rewrite Hi. apply IH; lia.
Qed.

(** X18. [print_sequence(count)] evaluates the test of its loop exactly
    [count + 1] times, once when [count <= 0]: it returns with fuel for
    that many tests and with no less. *)
Theorem print_sequence_fuel (fuel : nat) (count : Z) (out : string) :
  cint.in_range count ->
  print_sequence fuel count out = None <-> (fuel <= Z.to_nat count)%nat.
Proof.
  intros Hr. unfold print_sequence.
  destruct (Nat.le_gt_cases fuel (Z.to_nat count)) as [Hle | Hgt].
  - split; [intros _; exact Hle | intros _].
    destruct fuel as [| fuel]; [reflexivity |].
    change 0 with (Z.of_nat 0).
    apply print_sequence_loop_starves; [lia | int_lia].
  - split; [| lia]. intros H. exfalso.
    destruct (Z_le_gt_dec count 0) as [Hneg | Hpos].
    + destruct fuel as [| fuel]; [lia |].
      rewrite print_sequence_loop_skips in H by exact Hneg. discriminate.
    + fold (print_sequence fuel count out) in H.
      rewrite print_sequence_runs in H by (assumption || int_lia).
      discriminate.
Qed.

Lemma print_sequence_fuel_witness :
  print_sequence 10 10 "" = None <-> (10 <= Z.to_nat 10)%nat.
Proof. apply (print_sequence_fuel 10 10 ""). int_lia. Defined.

Lemma print_sequence_loop_frame (fuel : nat) :
  forall (count i : Z) (out : string),
    print_sequence_loop fuel count i out
    = option_map (String.append out) (print_sequence_loop fuel count i "").
Proof.
  induction fuel as [| fuel IH]; intros count i out; [reflexivity |].
  cbn [print_sequence_loop]. destruct (i <? count)%Z.
  - rewrite IH. rewrite (IH _ _ ("" ++ _)). cbn [String.append].
    destruct (print_sequence_loop fuel count (cint.add i 1) "") as [s |];
      [| reflexivity].
    cbn [option_map]. now rewrite append_assoc.
  - cbn [option_map]. now rewrite append_nil_r.
Qed.

(** X19. [print_sequence] only appends, and what it appends does not
    depend on the output written before. *)
Theorem print_sequence_frame (fuel : nat) (count : Z) (out : string) :
  print_sequence fuel count out
  = option_map (String.append out) (print_sequence fuel count "").
Proof. apply print_sequence_loop_frame. Qed.

Lemma fold_append_snoc (l : list string) (x : string) :
  fold_right String.append "" (l ++ [x]) = fold_right String.append "" l ++ x.
Proof.
  induction l as [| y l IH]; cbn [fold_right app String.append].
  - apply append_nil_r.
  - now rewrite IH, append_assoc.
Qed.

Lemma text_succ (k : nat) :
  sequence.text (S k)
  = sequence.text k ++ stdio.fmt_d (fibonacci (Z.of_nat k)) ++ " ".
Proof.
  unfold sequence.text.
  rewrite seq_S, map_app. cbn [map Nat.add].
  now rewrite fold_append_snoc.
Qed.

(** X20. One more item: [print_sequence(count + 1)] writes what
    [print_sequence(count)] writes, then [fibonacci(count)] and a space. *)
Theorem print_sequence_succ (fuel : nat) (count : Z) (out : string) :
  0 <= count < cint.INT_MAX -> (Z.to_nat count + 1 < fuel)%nat ->
  print_sequence fuel (count + 1) out
  = option_map (fun o => o ++ stdio.fmt_d (fibonacci count) ++ " ")
      (print_sequence fuel count out).
Proof.
  intros Hc Hf. rewrite !print_sequence_runs by lia.
  cbn [option_map]. f_equal.
  replace (Z.to_nat (count + 1)) with (S (Z.to_nat count)) by lia.
  rewrite text_succ, Z2Nat.id by lia.
  now rewrite append_assoc.
Qed.

Lemma print_sequence_succ_witness :
  print_sequence 5 (3 + 1) ">"
  = option_map (fun o => o ++ stdio.fmt_d (fibonacci 3) ++ " ")
      (print_sequence 5 3 ">").
Proof. apply (print_sequence_succ 5 3 ">"); [int_lia | cbn; lia]. Defined.

(** *** Counting the items written *)

Lemma count_char_app (c : ascii) (s t : string) :
  stdio.count_char c (s ++ t)
  = (stdio.count_char c s + stdio.count_char c t)%nat.
Proof.
  induction s as [| d s IH]; cbn [String.append stdio.count_char];
    [reflexivity | rewrite IH; lia].
Qed.

Lemma count_char_absent (p : ascii -> bool) (c : ascii) (s : string) :
  p c = false -> stdio.all_chars p s = true -> stdio.count_char c s = O.
Proof.
  intros Hc. induction s as [| d s IH]; cbn [stdio.all_chars stdio.count_char];
    [reflexivity |].
  intros [Hd Hs]%andb_prop. rewrite (IH Hs).
  destruct (Ascii.eqb_spec c d) as [-> | _]; [congruence | reflexivity].
Qed.

Lemma string_of_uint_digits (d : Decimal.uint) :
  stdio.all_chars stdio.digit_sign (NilEmpty.string_of_uint d) = true.
Proof. induction d; cbn [NilEmpty.string_of_uint stdio.all_chars]; auto. Qed.

(** The text of a [%d] conversion holds digits and a sign only. *)
Lemma fmt_d_digits (x : Z) :
  stdio.all_chars stdio.digit_sign (stdio.fmt_d x) = true.
Proof.
  unfold stdio.fmt_d, NilZero.string_of_int, NilZero.string_of_uint.
  destruct (Z.to_int x) as [[] | []];
    try reflexivity; cbn [stdio.all_chars]; now rewrite string_of_uint_digits.
Qed.

Lemma text_spaces (k : nat) : stdio.count_char " " (sequence.text k) = k.
Proof.
  induction k as [| k IH]; [reflexivity |].
  rewrite text_succ, !count_char_app, IH.
  rewrite (count_char_absent stdio.digit_sign) by (reflexivity || apply fmt_d_digits).
  cbn. lia.
Qed.

(** X21. The spaces count the items: when [print_sequence(count)]
    returns, it has written exactly [count] spaces, none when
    [count <= 0]. *)
Theorem print_sequence_spaces (fuel : nat) (count : Z) (out out' : string) :
  cint.in_range count ->
  print_sequence fuel count out = Some out' ->
  stdio.count_char " " out'
  = (stdio.count_char " " out + Z.to_nat count)%nat.
Proof.
  intros Hr Hrun.
  destruct (Nat.le_gt_cases fuel (Z.to_nat count)) as [Hle | Hgt].
  { destruct fuel as [| fuel]; [discriminate |].
    unfold print_sequence in Hrun. change 0 with (Z.of_nat 0) in Hrun.
    rewrite print_sequence_loop_starves in Hrun by int_lia. discriminate. }
  destruct (Z_le_gt_dec count 0) as [Hneg | Hpos].
  - destruct fuel as [| fuel]; [lia |].
    unfold print_sequence in Hrun.
    rewrite print_sequence_loop_skips in Hrun by exact Hneg.
    injection Hrun as <-. lia.
  - rewrite print_sequence_runs in Hrun by (assumption || int_lia).
    injection Hrun as <-. now rewrite count_char_app, text_spaces.
Qed.

Lemma print_sequence_spaces_witness :
  stdio.count_char " " "a b 0 1 1 "
  = (stdio.count_char " " "a b " + Z.to_nat 3)%nat.
Proof.
  apply (print_sequence_spaces 4 3 "a b " "a b 0 1 1 ");
    [int_lia | vm_compute; reflexivity].
Defined.

(** X22. [main] of complex.c appends the first ten numbers of the
    sequence to the output and exits with status 0; its loop needs fuel
    for eleven tests. *)
Theorem complex_main_output (fuel : nat) (out : string) :
  ((10 < fuel)%nat ->
   main fuel out = Some (0, out ++ "0 1 1 2 3 5 8 13 21 34 "))
  /\ ((fuel <= 10)%nat -> main fuel out = None).
Proof.
  unfold main. split; intros Hf.
  - rewrite print_sequence_runs by (int_lia || (cbn; lia)).
    do 3 f_equal.
  - unfold print_sequence. change 0 with (Z.of_nat 0).
    rewrite print_sequence_loop_starves; [reflexivity | lia | int_lia].
Qed.

Lemma complex_main_output_witness :
  main 11 "$ " = Some (0, "$ " ++ "0 1 1 2 3 5 8 13 21 34 ")
  /\ main 10 "$ " = None.
Proof.
  split; [apply (proj1 (complex_main_output 11 "$ "))
         | apply (proj2 (complex_main_output 10 "$ "))]; lia.
Defined.

End PrintSequenceMore.

(** ** main.c *)

Section MainC.

Local Open Scope string_scope.

(** X23. [main] of main.c appends five lines to the output: the greeting,
    the sum, the difference and the product of 5 and 3, and ["5 is odd"];
    it exits with status 0. *)
Theorem main_c_output (out : string) :
  main_c.main out
  = Some (0, out ++ "Hello, World!" ++ stdio.nl
                 ++ "5 + 3 = 8" ++ stdio.nl
                 ++ "5 - 3 = 2" ++ stdio.nl
                 ++ "5 * 3 = 15" ++ stdio.nl
                 ++ "5 is odd" ++ stdio.nl).
Proof.
  unfold main_c.main, stdio.bind, stdio.print, stdio.ret.
  cbn. now rewrite !append_assoc.
Qed.

End MainC.
